(** * grapple/types/images.py : image and rendition resolvers

    A shallow embedding of the resolvers of [grapple.types.images] and the
    properties of the rendition filter check, the filter-specification
    builder, the responsive source-set builder and the image query.

    Python objects are modelled by records, [None] by [option] or by a
    constructor of its own, exceptions by the [Raised] branch of [outcome],
    and the call to the rendition engine by a node of the [resolver] tree. *)

From Stdlib Require Import ZArith String Ascii List Bool Lia DecimalString.
From Stdlib Require Import DecimalPos DecimalZ.
From Stdlib Require Import Floats.SpecFloat.
Import ListNotations.

Open Scope string_scope.
Open Scope Z_scope.

(** ** Python values that reach this module *)

(** Values of the GraphQL arguments ([graphene.Int], [graphene.String], or
    an explicit null) and of the entries of the configured filter list. *)
Inductive scalar : Type :=
| SNone
| SInt (z : Z)
| SStr (s : string).

(** What [grapple_settings.ALLOWED_IMAGE_FILTERS] may hold: [None], a list,
    a tuple, or something that is neither (a single string, a set). *)
Inductive setting : Type :=
| PyNone
| PyList (items : list scalar)
| PyTuple (items : list scalar)
| PyStr (s : string)
| PySet (items : list scalar).

Record Settings : Type := { ALLOWED_IMAGE_FILTERS : setting }.

(** [str(int)]: decimal digits, with a leading minus sign below zero. *)
Definition str_int (z : Z) : string := NilZero.string_of_int (Z.to_int z).

(** [f"{val}"] for the values an argument can take. *)
Definition format_value (val : scalar) : string :=
  match val with
  | SNone => "None"
  | SInt z => str_int z
  | SStr s => s
  end.

(** [a == b] on scalars of the three kinds. *)
Definition scalar_eqb (a b : scalar) : bool :=
  match a, b with
  | SNone, SNone => true
  | SInt x, SInt y => Z.eqb x y
  | SStr x, SStr y => String.eqb x y
  | _, _ => false
  end.

(** [sub in s] on two strings: [sub] occurs in [s] at some offset. *)
Fixpoint str_contains (sub s : string) : bool :=
  if String.prefix sub s then true
  else match s with
       | EmptyString => false
       | String _ rest => str_contains sub rest
       end.

Definition is_None (v : setting) : bool :=
  match v with PyNone => true | _ => false end.

(** [isinstance(v, (list, tuple))] *)
Definition isinstance_list_tuple (v : setting) : bool :=
  match v with PyList _ | PyTuple _ => true | _ => false end.

(** [x in container], for a string [x].  On [None] Python raises a
    [TypeError]; [rendition_allowed] never evaluates that case. *)
Definition py_in (x : string) (container : setting) : bool :=
  match container with
  | PyNone => false
  | PyList items | PyTuple items | PySet items =>
      existsb (scalar_eqb (SStr x)) items
  | PyStr s => str_contains x s
  end.

Section Allowed.

Variable grapple_settings : Settings.

(** images.py, [rendition_allowed] *)
Definition rendition_allowed (rendition_filter : string) : bool :=
  let allowed_filters := ALLOWED_IMAGE_FILTERS grapple_settings in
  if is_None allowed_filters || negb (isinstance_list_tuple allowed_filters)
  then true
  else py_in rendition_filter allowed_filters.

End Allowed.

(** The entries of a configured list or tuple; [None] for any other value. *)
Definition configured_entries (v : setting) : option (list scalar) :=
  match v with
  | PyList items | PyTuple items => Some items
  | _ => None
  end.

(** ** Model objects *)

Module Collection.
(** A collection and the identifiers of its view restrictions (the
    reverse relation [view_restrictions]). *)
Record t : Type := {
  id : Z;
  name : string;
  view_restrictions : list Z
}.
End Collection.

Module Image.
(** The fields of the image model that the resolvers read.
    [file_name] is [instance.file.name], [None] when nothing is stored. *)
Record t : Type := {
  pk : Z;
  title : string;
  file_name : option string;
  width : Z;
  height : Z;
  collection : Collection.t
}.
End Image.

Module Rendition.
Record t : Type := {
  id : Z;
  image : Z;
  filter_spec : string;
  file : string;
  width : Z;
  height : Z
}.
End Rendition.

(** The argument of [get_media_item_url]: an image or a rendition. *)
Inductive media_item : Type :=
| ImageItem (instance : Image.t)
| RenditionItem (img : Rendition.t).

(** ** Exceptions and results *)

Inductive exn : Type :=
| SourceImageIOError
| DoesNotExist
| MultipleObjectsReturned
| ZeroDivisionError
| OverflowError
| OtherError (message : string).

Inductive outcome (A : Type) : Type :=
| Ok (a : A)
| Raised (e : exn).
Arguments Ok {A} a.
Arguments Raised {A} e.

(** ** Resolver programs

    A resolver returns, raises, or calls [instance.get_rendition(filters)]
    and goes on with what the engine answered. *)
Inductive resolver (A : Type) : Type :=
| Return (a : A)
| Raise (e : exn)
| GetRendition (instance : Image.t) (filters : string)
               (k : outcome Rendition.t -> resolver A).
Arguments Return {A} a.
Arguments Raise {A} e.
Arguments GetRendition {A} instance filters k.

Fixpoint bind {A B : Type} (m : resolver A) (f : A -> resolver B) : resolver B :=
  match m with
  | Return a => f a
  | Raise e => Raise e
  | GetRendition instance filters k =>
      GetRendition instance filters (fun o => bind (k o) f)
  end.

Notation "x <- m ;; k" := (bind m (fun x => k))
  (at level 61, m at next level, right associativity).

(** A rendition engine over a state of its own. *)
Definition engine (St : Type) : Type :=
  Image.t -> string -> St -> outcome Rendition.t * St.

(** Running a resolver against an engine. *)
Fixpoint run {St A : Type} (get_rendition : engine St) (m : resolver A) (st : St)
  : outcome A * St :=
  match m with
  | Return a => (Ok a, st)
  | Raise e => (Raised e, st)
  | GetRendition instance filters k =>
      let (o, st') := get_rendition instance filters st in
      run get_rendition (k o) st'
  end.

(** The engine calls a run makes, in order. *)
Fixpoint calls {St A : Type} (get_rendition : engine St) (m : resolver A) (st : St)
  : list (Image.t * string) :=
  match m with
  | Return _ | Raise _ => []
  | GetRendition instance filters k =>
      let (o, st') := get_rendition instance filters st in
      (instance, filters) :: calls get_rendition (k o) st'
  end.

(** ** Float division of integers *)

Definition prec : Z := 53.
Definition emax : Z := 1024.

(** [a / b] on Python integers: the quotient rounded to the nearest
    double, [ZeroDivisionError] for a zero divisor, [OverflowError] when the
    quotient is too large for a double. *)
Definition int_truediv (a b : Z) : outcome spec_float :=
  match a, b with
  | _, Z0 => Raised ZeroDivisionError
  | Z0, _ => Ok (S754_zero (b <? 0))
  | _, _ =>
      let '(m, e, l) := SFdiv_core_binary prec emax (Z.abs a) 0 (Z.abs b) 0 in
      match binary_round_aux prec emax (xorb (a <? 0) (b <? 0)) m e l with
      | S754_infinity _ => Raised OverflowError
      | q => Ok q
      end
  end.

(** [float(n)] for an integer that a double holds exactly. *)
Definition float_of_Z (n : Z) : spec_float := binary_normalize prec emax n 0 false.

(** ** The resolvers of [ImageObjectType] *)

Section Resolvers.

Variable grapple_settings : Settings.
(** [grapple.utils.get_media_item_url] *)
Variable get_media_item_url : media_item -> string.

(** [f"{key}-{val}"] *)
Definition filter_token (item : string * scalar) : string :=
  let (key, val) := item in key ++ "-" ++ format_value val.

(** ["|".join([f"{key}-{val}" for key, val in kwargs.items()])] *)
Definition rendition_filters (kwargs : list (string * scalar)) : string :=
  String.concat "|" (map filter_token kwargs).

Definition resolve_rendition (instance : Image.t) (kwargs : list (string * scalar))
  : resolver (option Rendition.t) :=
  let filters := rendition_filters kwargs in
  if negb (rendition_allowed grapple_settings filters) then Return None
  else
    GetRendition instance filters (fun o =>
      match o with
      | Ok rendition => Return (Some rendition)
      | Raised SourceImageIOError => Return None
      | Raised e => Raise e
      end).

Definition resolve_url (instance : Image.t) : string :=
  get_media_item_url (ImageItem instance).

Definition resolve_src (self : Image.t) : string :=
  get_media_item_url (ImageItem self).

Definition resolve_aspect_ratio (instance : Image.t) : outcome spec_float :=
  int_truediv (Image.width instance) (Image.height instance).

Definition resolve_sizes (instance : Image.t) : string :=
  "(max-width: " ++ str_int (Image.width instance) ++ "px) 100vw, "
    ++ str_int (Image.width instance) ++ "px".

(** Truth value of the [format] argument: set and not the empty string. *)
Definition truthy (format : option string) : bool :=
  match format with
  | Some EmptyString | None => false
  | Some _ => true
  end.

(** [f"{format}"] *)
Definition format_text (format : option string) : string :=
  match format with Some s => s | None => "None" end.

(** [f"|format-{format}" if format else ""] *)
Definition filter_suffix (format : option string) : string :=
  if truthy format then "|format-" ++ format_text format else "".

(** [{"format": format} if format else {}] *)
Definition format_kwarg (format : option string) : list (string * scalar) :=
  if truthy format then [("format", SStr (format_text format))] else [].

(** The first comprehension of [resolve_src_set]: one [resolve_rendition]
    per width that passes the condition, in the order of [sizes]. *)
Fixpoint rendition_list (instance : Image.t) (format : option string)
         (sizes : list Z) : resolver (list (option Rendition.t)) :=
  match sizes with
  | [] => Return []
  | width :: rest =>
      if rendition_allowed grapple_settings
           ("width-" ++ str_int width ++ filter_suffix format)
      then
        r <- resolve_rendition instance
               (("width", SInt width) :: format_kwarg format) ;;
        rs <- rendition_list instance format rest ;;
        Return (r :: rs)
      else rendition_list instance format rest
  end.

(** [f"{get_media_item_url(img)} {img.width}w"] *)
Definition descriptor (img : Rendition.t) : string :=
  get_media_item_url (RenditionItem img) ++ " "
    ++ str_int (Rendition.width img) ++ "w".

(** The second comprehension: the descriptors of the entries that are
    not [None]. *)
Fixpoint descriptors (l : list (option Rendition.t)) : list string :=
  match l with
  | [] => []
  | Some img :: rest => descriptor img :: descriptors rest
  | None :: rest => descriptors rest
  end.

Definition resolve_src_set (instance : Image.t) (sizes : list Z)
           (format : option string) : resolver string :=
  match Image.file_name instance with
  | Some _ =>
      l <- rendition_list instance format sizes ;;
      Return (String.concat ", " (descriptors l))
  | None => Return ""
  end.

End Resolvers.

(** ** The image query *)

(** [queryset.get(pk=id)] *)
Definition queryset_get (queryset : list Image.t) (id : Z) : outcome Image.t :=
  match filter (fun i => Image.pk i =? id) queryset with
  | [] => Raised DoesNotExist
  | [i] => Ok i
  | _ :: _ :: _ => Raised MultipleObjectsReturned
  end.

(** [collection__view_restrictions__isnull=True] *)
Definition unrestricted (i : Image.t) : bool :=
  match Collection.view_restrictions (Image.collection i) with
  | [] => true
  | _ :: _ => false
  end.

(** [prefetch_renditions()] changes how renditions are loaded, not which
    rows the queryset holds. *)
Definition prefetch_renditions (queryset : list Image.t) : list Image.t := queryset.

(** [Mixin.resolve_image], over the rows [objects] of the image table. *)
Definition resolve_image (objects : list Image.t) (id : Z) : outcome (option Image.t) :=
  match queryset_get (prefetch_renditions (filter unrestricted objects)) id with
  | Ok i => Ok (Some i)
  | Raised DoesNotExist => Ok None
  | Raised e => Raised e
  end.

(** ** The rendition engine *)

Module Engine.

(** The rendition table and the next free identifier. *)
Record store : Type := {
  renditions : list Rendition.t;
  next_id : Z
}.

Definition same_key (instance : Image.t) (filters : string) (r : Rendition.t) : bool :=
  (Rendition.image r =? Image.pk instance) && String.eqb (Rendition.filter_spec r) filters.

Section GetOrCreate.

(** Whether reading the stored source of an image fails. *)
Variable unreadable : Image.t -> bool.
(** File name, width and height of the derived asset. *)
Variable render : Image.t -> string -> string * Z * Z.

Definition create (instance : Image.t) (filters : string) (ident : Z) : Rendition.t :=
  let '(f, w, h) := render instance filters in
  {| Rendition.id := ident;
     Rendition.image := Image.pk instance;
     Rendition.filter_spec := filters;
     Rendition.file := f;
     Rendition.width := w;
     Rendition.height := h |}.

(** Modelled from the spec: [Image.get_rendition] of the image library,
    which is not part of this repository's sources.  The spec asks of
    it "get-or-create rendition for filter spec" with a distinguishable
    "source unreadable" failure: an existing rendition of the image for
    the filter specification is returned as it is; otherwise the source
    is read, which may fail, and a new rendition is stored. *)
Definition get_rendition : engine store :=
  fun instance filters st =>
    match find (same_key instance filters) (renditions st) with
    | Some r => (Ok r, st)
    | None =>
        if unreadable instance then (Raised SourceImageIOError, st)
        else
          let r := create instance filters (next_id st) in
          (Ok r, {| renditions := renditions st ++ [r];
                    next_id := next_id st + 1 |})
    end.

End GetOrCreate.

Definition key (r : Rendition.t) : Z * string :=
  (Rendition.image r, Rendition.filter_spec r).

(** At most one rendition per image and filter specification. *)
Definition at_most_one (st : store) : Prop := NoDup (map key (renditions st)).

End Engine.

(** ** The contracts in the words of the specification *)

(** Key-value pairs written [key-value] and separated by [|], first pair
    first. *)
Fixpoint joined_pairs (options : list (string * scalar)) : string :=
  match options with
  | [] => ""
  | (key, val) :: rest =>
      match rest with
      | [] => key ++ "-" ++ format_value val
      | _ :: _ => key ++ "-" ++ format_value val ++ "|" ++ joined_pairs rest
      end
  end.



(** The token checked for a target width: [width-<N>], followed by
    [|format-<F>] when a format is given. *)
Definition width_token (width : Z) (format : option string) : string :=
  match format with
  | Some (String c f) => "width-" ++ str_int width ++ "|format-" ++ String c f
  | Some EmptyString | None => "width-" ++ str_int width
  end.

Section SourceSet.

Variable grapple_settings : Settings.
Variable get_media_item_url : media_item -> string.
Context {St : Type}.
Variable get_rendition : engine St.

(** The renditions of the widths that pass the check and resolve, in the
    order of the widths; a failure other than an unreadable source ends
    the walk. *)
Fixpoint survivors (instance : Image.t) (format : option string)
         (sizes : list Z) (st : St) : outcome (list Rendition.t) * St :=
  match sizes with
  | [] => (Ok [], st)
  | width :: rest =>
      if rendition_allowed grapple_settings (width_token width format) then
        match get_rendition instance (width_token width format) st with
        | (Ok r, st1) =>
            match survivors instance format rest st1 with
            | (Ok rs, st2) => (Ok (r :: rs), st2)
            | (Raised e, st2) => (Raised e, st2)
            end
        | (Raised SourceImageIOError, st1) => survivors instance format rest st1
        | (Raised e, st1) => (Raised e, st1)
        end
      else survivors instance format rest st
  end.

(** ["<url> <width>w"] for each survivor, separated by [", "]. *)
Definition source_set (rs : list Rendition.t) : string :=
  String.concat ", "
    (map (fun r => get_media_item_url (RenditionItem r) ++ " "
                     ++ str_int (Rendition.width r) ++ "w") rs).

End SourceSet.

(** The [sizes] text with the width put in both places. *)
Definition sizes_text (width : string) : string :=
  String.concat width ["(max-width: "; "px) 100vw, "; "px"].

(** ** Sample data *)

Definition public_collection : Collection.t :=
  {| Collection.id := 1; Collection.name := "Root"; Collection.view_restrictions := [] |}.

Definition private_collection : Collection.t :=
  {| Collection.id := 2; Collection.name := "Staff"; Collection.view_restrictions := [7] |}.

Definition photo : Image.t :=
  {| Image.pk := 1; Image.title := "photo"; Image.file_name := Some "images/photo.jpg";
     Image.width := 1920; Image.height := 1080; Image.collection := public_collection |}.

Definition draft : Image.t :=
  {| Image.pk := 2; Image.title := "draft"; Image.file_name := None;
     Image.width := 640; Image.height := 0; Image.collection := private_collection |}.

Definition open_settings : Settings := {| ALLOWED_IMAGE_FILTERS := PyNone |}.

Definition strict_settings : Settings :=
  {| ALLOWED_IMAGE_FILTERS := PyList [SStr "width-100"; SStr "width-200"] |}.

(** A renderer that scales to the requested width for two known filters
    and keeps the size of the source otherwise. *)
Definition sample_render (instance : Image.t) (filters : string) : string * Z * Z :=
  if String.eqb filters "width-100" then ("images/photo.width-100.jpg", 100, 56)
  else if String.eqb filters "width-200" then ("images/photo.width-200.jpg", 200, 112)
  else ("images/" ++ filters, Image.width instance, Image.height instance).

Definition sample_url (item : media_item) : string :=
  match item with
  | ImageItem i =>
      match Image.file_name i with Some n => "/media/" ++ n | None => "" end
  | RenditionItem r => "/media/" ++ Rendition.file r
  end.

Definition empty_store : Engine.store :=
  {| Engine.renditions := []; Engine.next_id := 1 |}.

(** The entries of a list that are not [None]. *)
Fixpoint present {A : Type} (l : list (option A)) : list A :=
  match l with
  | [] => []
  | Some a :: rest => a :: present rest
  | None :: rest => present rest
  end.

(** ** The image list *)

Section ImageList.

Context {R : Type}.
(** [grapple.utils.resolve_queryset], applied to a queryset and the
    keyword arguments of the field. *)
Variable resolve_queryset : list Image.t -> list (string * scalar) -> R.

(** [Mixin.resolve_images], over the rows [objects] of the image table. *)
Definition resolve_images (objects : list Image.t) (kwargs : list (string * scalar)) : R :=
  resolve_queryset (prefetch_renditions (filter unrestricted objects)) kwargs.

End ImageList.

(** * Properties *)

(** ** The filter check *)

Lemma existsb_scalar_eqb_In (f : string) (items : list scalar) :
  existsb (scalar_eqb (SStr f)) items = true <-> In (SStr f) items.
Proof.
  induction items as [|e items IH]; simpl.
  - split; [discriminate | tauto].
  - rewrite orb_true_iff, IH. split.
    + intros [H | H]; [left | right; exact H].
      destruct e as [|z|s]; simpl in H; try discriminate.
      apply String.eqb_eq in H. now subst.
    + intros [H | H]; [left | right; exact H].
      subst e. simpl. apply String.eqb_refl.
Qed.

(** The check is unrestricted exactly when the setting is not a list or
    tuple, and is membership in the entries otherwise. *)
Lemma rendition_allowed_cases (cfg : Settings) (f : string) :
  rendition_allowed cfg f =
  match configured_entries (ALLOWED_IMAGE_FILTERS cfg) with
  | None => true
  | Some items => existsb (scalar_eqb (SStr f)) items
  end.
Proof.
  unfold rendition_allowed.
  destruct (ALLOWED_IMAGE_FILTERS cfg); reflexivity.
Qed.

(** C1, as the code has it: with a setting that is [None] or not a list or
    tuple every filter string is allowed; with a list or tuple a filter
    string is allowed exactly when it is equal, character for character, to
    one of the entries.  Nothing is allowed by an empty list. *)
Theorem rendition_allowed_spec (cfg : Settings) (f : string) :
  match configured_entries (ALLOWED_IMAGE_FILTERS cfg) with
  | None => rendition_allowed cfg f = true
  | Some [] => rendition_allowed cfg f = false
  | Some items => rendition_allowed cfg f = true <-> In (SStr f) items
  end.
Proof.
  rewrite rendition_allowed_cases.
  destruct (configured_entries (ALLOWED_IMAGE_FILTERS cfg)) as [[|e items]|].
  - reflexivity.
  - apply existsb_scalar_eqb_In.
  - reflexivity.
Qed.

(** C1 fails as it is written: an empty list is a list, and under it no
    specification is permitted. *)
Lemma empty_allow_list_permits_nothing :
  ~ (forall f : string,
       rendition_allowed {| ALLOWED_IMAGE_FILTERS := PyList [] |} f = true).
Proof.
  intros H. specialize (H "width-100"). discriminate H.
Qed.

(** The comparison tells upper case from lower case. *)
Example rendition_allowed_case_sensitive :
  rendition_allowed strict_settings "width-100" = true /\
  rendition_allowed strict_settings "Width-100" = false.
Proof. split; reflexivity. Qed.

(** An entry that merely contains the filter string does not allow it,
    and a setting that is a single string restricts nothing. *)
Example rendition_allowed_no_substring :
  rendition_allowed {| ALLOWED_IMAGE_FILTERS := PyTuple [SStr "width-100|format-webp"] |}
    "width-100" = false /\
  rendition_allowed {| ALLOWED_IMAGE_FILTERS := PyStr "width-100" |} "fill-9x9" = true.
Proof. split; reflexivity. Qed.

(** ** The filter specification *)

Lemma string_app_assoc (a b c : string) : (a ++ b) ++ c = a ++ b ++ c.
Proof. induction a as [|ch a IH]; simpl; [reflexivity | now rewrite IH]. Qed.

Lemma rendition_filters_joined (kwargs : list (string * scalar)) :
  rendition_filters kwargs = joined_pairs kwargs.
Proof.
  unfold rendition_filters.
  induction kwargs as [|[key val] rest IH]; [reflexivity|].
  destruct rest as [|p rest]; [reflexivity|].
  change (joined_pairs ((key, val) :: p :: rest))
    with (key ++ "-" ++ format_value val ++ "|" ++ joined_pairs (p :: rest)).
  rewrite <- IH.
  change (String.concat "|" (map filter_token ((key, val) :: p :: rest)))
    with ((key ++ "-" ++ format_value val)
            ++ "|" ++ String.concat "|" (map filter_token (p :: rest))).
  now rewrite !string_app_assoc.
Qed.




(** C2: the filter specification built by [resolve_rendition] is the
    keyword arguments written [key-value] and joined with [|] in their
    order, and this string is what the engine is asked for. *)
Theorem resolve_rendition_filter_spec
        (cfg : Settings) (St : Type) (eng : engine St)
        (instance : Image.t) (kwargs : list (string * scalar)) (st : St) :
  rendition_filters kwargs = joined_pairs kwargs /\
  calls eng (resolve_rendition cfg instance kwargs) st =
    if rendition_allowed cfg (joined_pairs kwargs)
    then [(instance, joined_pairs kwargs)] else [].
Proof.
  split; [apply rendition_filters_joined|].
  unfold resolve_rendition. rewrite rendition_filters_joined.
  destruct (rendition_allowed cfg (joined_pairs kwargs)); cbn [negb calls].
  - destruct (eng instance (joined_pairs kwargs) st) as [[r|[]] st']; reflexivity.
  - reflexivity.
Qed.

Example rendition_filters_sample :
  rendition_filters [("fill", SStr "200x100"); ("format", SStr "webp"); ("webpquality", SInt 80)]
  = "fill-200x100|format-webp|webpquality-80".
Proof. reflexivity. Qed.

Example rendition_filters_order :
  rendition_filters [("format", SStr "webp"); ("width", SInt 100)] = "format-webp|width-100" /\
  rendition_filters [("width", SInt 100); ("format", SStr "webp")] = "width-100|format-webp".
Proof. split; reflexivity. Qed.

(** ** Failure handling of [resolve_rendition] *)

(** C4: a disallowed specification gives [None] and no engine call; on an
    allowed one the engine is called once, its rendition is returned, its
    [SourceImageIOError] becomes [None], and any other error it raises is
    raised by the resolver. *)
Theorem resolve_rendition_failure_modes
        (cfg : Settings) (St : Type) (eng : engine St)
        (instance : Image.t) (kwargs : list (string * scalar)) (st : St) :
  if rendition_allowed cfg (rendition_filters kwargs) then
    calls eng (resolve_rendition cfg instance kwargs) st
      = [(instance, rendition_filters kwargs)] /\
    run eng (resolve_rendition cfg instance kwargs) st =
      match eng instance (rendition_filters kwargs) st with
      | (Ok rendition, st') => (Ok (Some rendition), st')
      | (Raised SourceImageIOError, st') => (Ok None, st')
      | (Raised e, st') => (Raised e, st')
      end
  else
    resolve_rendition cfg instance kwargs = Return None /\
    calls eng (resolve_rendition cfg instance kwargs) st = [] /\
    run eng (resolve_rendition cfg instance kwargs) st = (Ok None, st).
Proof.
  unfold resolve_rendition.
  destruct (rendition_allowed cfg (rendition_filters kwargs)); cbn [negb calls run].
  - destruct (eng instance (rendition_filters kwargs) st) as [[r|[]] st'];
      split; reflexivity.
  - repeat split.
Qed.

(** With the list [width-100], [width-200]: width 300 gives [None] and
    creates nothing, width 100 gives its rendition. *)
Example resolve_rendition_allow_list :
  run (Engine.get_rendition (fun _ => false) sample_render)
      (resolve_rendition strict_settings photo [("width", SInt 300)]) empty_store
  = (Ok None, empty_store) /\
  fst (run (Engine.get_rendition (fun _ => false) sample_render)
           (resolve_rendition strict_settings photo [("width", SInt 100)]) empty_store)
  = Ok (Some {| Rendition.id := 1; Rendition.image := 1;
                Rendition.filter_spec := "width-100";
                Rendition.file := "images/photo.width-100.jpg";
                Rendition.width := 100; Rendition.height := 56 |}).
Proof. split; reflexivity. Qed.

(** An engine error other than an unreadable source reaches the caller. *)
Example resolve_rendition_other_error :
  run (fun _ _ (st : unit) => (Raised (OtherError "invalid filter"), st))
      (resolve_rendition open_settings photo [("width", SNone)]) tt
  = (Raised (OtherError "invalid filter"), tt).
Proof. reflexivity. Qed.

(** ** Running composed resolvers *)

Lemma run_bind {St A B : Type} (eng : engine St) (m : resolver A)
      (f : A -> resolver B) (st : St) :
  run eng (bind m f) st =
  match run eng m st with
  | (Ok a, st') => run eng (f a) st'
  | (Raised e, st') => (Raised e, st')
  end.
Proof.
  revert st. induction m as [a | e | instance filters k IH]; intros st; cbn [bind run].
  - reflexivity.
  - reflexivity.
  - destruct (eng instance filters st) as [o st']. apply IH.
Qed.

Lemma calls_bind {St A B : Type} (eng : engine St) (m : resolver A)
      (f : A -> resolver B) (st : St) :
  calls eng (bind m f) st =
  (calls eng m st ++
   match run eng m st with
   | (Ok a, st') => calls eng (f a) st'
   | (Raised _, _) => []
   end)%list.
Proof.
  revert st. induction m as [a | e | instance filters k IH]; intros st; cbn [bind run calls].
  - reflexivity.
  - reflexivity.
  - destruct (eng instance filters st) as [o st']. cbn [app]. now rewrite IH.
Qed.

(** ** The source set *)

Lemma string_app_nil (a : string) : a ++ "" = a.
Proof. induction a as [|ch a IH]; simpl; [reflexivity | now rewrite IH]. Qed.

Lemma checked_token (width : Z) (format : option string) :
  "width-" ++ str_int width ++ filter_suffix format = width_token width format.
Proof.
  unfold filter_suffix, width_token.
  destruct format as [[|c f]|]; cbn [truthy format_text];
    rewrite ?string_app_nil; reflexivity.
Qed.

Lemma requested_filters (width : Z) (format : option string) :
  rendition_filters (("width", SInt width) :: format_kwarg format)
  = width_token width format.
Proof.
  unfold rendition_filters, format_kwarg, width_token.
  destruct format as [[|c f]|]; cbn [truthy format_text map filter_token format_value];
    reflexivity.
Qed.

Lemma descriptors_present (url : media_item -> string) (l : list (option Rendition.t)) :
  String.concat ", " (descriptors url l) = source_set url (present l).
Proof.
  unfold source_set. f_equal.
  induction l as [|[r|] l IH]; simpl; [reflexivity | | exact IH].
  now rewrite IH.
Qed.

Lemma rendition_list_survivors
      (cfg : Settings) (St : Type) (eng : engine St)
      (instance : Image.t) (format : option string) (sizes : list Z) (st : St) :
  match survivors cfg eng instance format sizes st with
  | (Ok rs, st') =>
      exists l, run eng (rendition_list cfg instance format sizes) st = (Ok l, st')
                /\ present l = rs
  | (Raised e, st') =>
      run eng (rendition_list cfg instance format sizes) st = (Raised e, st')
  end.
Proof.
  revert st. induction sizes as [|width rest IH]; intros st.
  - exists []. split; reflexivity.
  - cbn [survivors rendition_list]. rewrite checked_token.
    destruct (rendition_allowed cfg (width_token width format)) eqn:Hallowed;
      [|apply IH].
    rewrite run_bind. unfold resolve_rendition.
    rewrite requested_filters, Hallowed. cbn [negb run].
    destruct (eng instance (width_token width format) st) as [[r|e] st1].
    + cbn [run]. rewrite run_bind. specialize (IH st1).
      destruct (survivors cfg eng instance format rest st1) as [[rs|e] st2].
      * destruct IH as (l & Hl & Hp). rewrite Hl. cbn [run].
        exists (Some r :: l). split; [reflexivity|]. cbn [present]. now rewrite Hp.
      * now rewrite IH.
    + destruct e; cbn [run]; try reflexivity.
      rewrite run_bind. specialize (IH st1).
      destruct (survivors cfg eng instance format rest st1) as [[rs|e] st2].
      * destruct IH as (l & Hl & Hp). rewrite Hl. cbn [run].
        exists (None :: l). split; [reflexivity | exact Hp].
      * now rewrite IH.
Qed.

(** When no engine error ends the walk, the engine is asked once for each
    allowed width, in the order of the sizes, with the checked token. *)
Lemma rendition_list_calls
      (cfg : Settings) (St : Type) (eng : engine St)
      (instance : Image.t) (format : option string) (sizes : list Z) (st : St) :
  (exists rs, fst (survivors cfg eng instance format sizes st) = Ok rs) ->
  calls eng (rendition_list cfg instance format sizes) st =
  map (fun width => (instance, width_token width format))
      (filter (fun width => rendition_allowed cfg (width_token width format)) sizes).
Proof.
  revert st. induction sizes as [|width rest IH]; intros st [rs Hrs]; [reflexivity|].
  cbn [survivors rendition_list filter] in *. rewrite checked_token.
  destruct (rendition_allowed cfg (width_token width format)) eqn:Hallowed;
    [|apply IH; now exists rs].
  rewrite calls_bind. unfold resolve_rendition.
  rewrite requested_filters, Hallowed. cbn [negb run calls map].
  destruct (eng instance (width_token width format) st) as [[r|e] st1].
  - cbn [run app]. f_equal. rewrite calls_bind, IH.
    + destruct (run eng (rendition_list cfg instance format rest) st1) as [[l|e] st2];
        apply app_nil_r.
    + destruct (survivors cfg eng instance format rest st1) as [[rs'|e] st2];
        [now exists rs' | discriminate].
  - destruct e; try discriminate.
    cbn [run app]. f_equal. rewrite calls_bind, IH.
    + destruct (run eng (rendition_list cfg instance format rest) st1) as [[l|e] st2];
        apply app_nil_r.
    + now exists rs.
Qed.

(** C3: for an image with a stored file, [resolve_src_set] asks the engine
    for a rendition of every width whose token [width-<N>] (followed by
    [|format-<F>] for a non-empty format) is allowed, drops the widths
    that gave no rendition, and returns ["<url> <width>w"] of the others,
    with the url and width of each rendition, separated by [", "].  An
    engine error other than an unreadable source is raised. *)
Theorem resolve_src_set_spec
        (cfg : Settings) (url : media_item -> string) (St : Type) (eng : engine St)
        (instance : Image.t) (sizes : list Z) (format : option string) (st : St) :
  Image.file_name instance <> None ->
  run eng (resolve_src_set cfg url instance sizes format) st =
  match survivors cfg eng instance format sizes st with
  | (Ok rs, st') => (Ok (source_set url rs), st')
  | (Raised e, st') => (Raised e, st')
  end.
Proof.
  intros Hfile. unfold resolve_src_set.
  destruct (Image.file_name instance) as [n|]; [|congruence].
  rewrite run_bind.
  pose proof (rendition_list_survivors cfg St eng instance format sizes st) as H.
  destruct (survivors cfg eng instance format sizes st) as [[rs|e] st'].
  - destruct H as (l & Hl & Hp). rewrite Hl. cbn [run].
    now rewrite descriptors_present, Hp.
  - now rewrite H.
Qed.


Lemma resolve_src_set_spec_witness :
  Image.file_name photo <> None /\
  run (Engine.get_rendition (fun _ => false) sample_render)
      (resolve_src_set strict_settings sample_url photo [100; 300; 200] None) empty_store =
  match survivors strict_settings (Engine.get_rendition (fun _ => false) sample_render)
                  photo None [100; 300; 200] empty_store with
  | (Ok rs, st') => (Ok (source_set sample_url rs), st')
  | (Raised e, st') => (Raised e, st')
  end.
Proof.
  split; [discriminate | apply resolve_src_set_spec; discriminate].
Defined.


(** Both widths allowed: two descriptors, in the order of the sizes. *)
Example resolve_src_set_two_widths :
  fst (run (Engine.get_rendition (fun _ => false) sample_render)
           (resolve_src_set open_settings sample_url photo [100; 200] None) empty_store)
  = Ok "/media/images/photo.width-100.jpg 100w, /media/images/photo.width-200.jpg 200w".
Proof. reflexivity. Qed.

(** Width 200 not in the configured list: only the first descriptor. *)
Example resolve_src_set_one_width :
  fst (run (Engine.get_rendition (fun _ => false) sample_render)
           (resolve_src_set {| ALLOWED_IMAGE_FILTERS := PyList [SStr "width-100"] |}
                            sample_url photo [100; 200] None) empty_store)
  = Ok "/media/images/photo.width-100.jpg 100w".
Proof. reflexivity. Qed.

(** With a format the checked token carries it, so a list of bare width
    tokens allows none of the widths. *)
Example resolve_src_set_format_token :
  fst (run (Engine.get_rendition (fun _ => false) sample_render)
           (resolve_src_set strict_settings sample_url photo [100; 200] (Some "webp"))
           empty_store)
  = Ok "" /\
  calls (Engine.get_rendition (fun _ => false) sample_render)
        (resolve_src_set open_settings sample_url photo [100] (Some "webp")) empty_store
  = [(photo, "width-100|format-webp")].
Proof. split; reflexivity. Qed.

(** An unreadable source drops every width. *)
Example resolve_src_set_unreadable :
  run (Engine.get_rendition (fun _ => true) sample_render)
      (resolve_src_set open_settings sample_url photo [100; 200] None) empty_store
  = (Ok "", empty_store).
Proof. reflexivity. Qed.

(** ** Get-or-create *)

Section EngineFacts.

Variable unreadable : Image.t -> bool.
Variable render : Image.t -> string -> string * Z * Z.

Lemma create_same_key (instance : Image.t) (filters : string) (ident : Z) :
  Engine.same_key instance filters (Engine.create render instance filters ident) = true.
Proof.
  unfold Engine.same_key, Engine.create.
  destruct (render instance filters) as [[f w] h]. simpl.
  now rewrite Z.eqb_refl, String.eqb_refl.
Qed.

Lemma find_last {A : Type} (p : A -> bool) (l : list A) (x : A) :
  find p l = None -> p x = true -> find p (l ++ [x])%list = Some x.
Proof.
  induction l as [|a l IH]; simpl; intros Hl Hx.
  - now rewrite Hx.
  - destruct (p a); [discriminate | now apply IH].
Qed.

(** Asking again for what was just asked changes nothing. *)
Lemma get_rendition_again (instance : Image.t) (filters : string) (st : Engine.store) :
  Engine.get_rendition unreadable render instance filters
    (snd (Engine.get_rendition unreadable render instance filters st))
  = Engine.get_rendition unreadable render instance filters st.
Proof.
  unfold Engine.get_rendition.
  destruct (find (Engine.same_key instance filters) (Engine.renditions st)) as [r|] eqn:Hfind.
  - cbn [snd]. now rewrite Hfind.
  - destruct (unreadable instance) eqn:Hread; cbn [snd Engine.renditions].
    + now rewrite Hfind.
    + now rewrite (find_last _ _ _ Hfind (create_same_key instance filters _)).
Qed.

Lemma same_key_false (instance : Image.t) (filters : string) (r : Rendition.t) :
  Engine.same_key instance filters r = false ->
  Engine.key r <> (Image.pk instance, filters).
Proof.
  unfold Engine.same_key, Engine.key. intros H E. inversion E as [[E1 E2]].
  now rewrite E1, E2, Z.eqb_refl, String.eqb_refl in H.
Qed.

Lemma get_rendition_at_most_one (instance : Image.t) (filters : string) (st : Engine.store) :
  Engine.at_most_one st ->
  Engine.at_most_one (snd (Engine.get_rendition unreadable render instance filters st)).
Proof.
  unfold Engine.get_rendition, Engine.at_most_one. intros Hst.
  destruct (find (Engine.same_key instance filters) (Engine.renditions st)) as [r|] eqn:Hfind;
    [exact Hst|].
  destruct (unreadable instance); [exact Hst|].
  cbn [snd Engine.renditions]. rewrite map_app.
  apply NoDup_app; [exact Hst | repeat constructor; intros [] |].
  intros k Hk [Hn|[]]. apply in_map_iff in Hk as (r & Hr & Hin).
  apply (same_key_false instance filters r).
  - exact (find_none _ _ Hfind r Hin).
  - rewrite Hr, <- Hn. unfold Engine.key, Engine.create.
    now destruct (render instance filters) as [[f w] h].
Qed.

(** No resolver can break the invariant of the rendition table. *)
Lemma run_at_most_one {A : Type} (m : resolver A) (st : Engine.store) :
  Engine.at_most_one st ->
  Engine.at_most_one (snd (run (Engine.get_rendition unreadable render) m st)).
Proof.
  revert st. induction m as [a | e | instance filters k IH]; intros st Hst; cbn [run].
  - exact Hst.
  - exact Hst.
  - pose proof (get_rendition_at_most_one instance filters st Hst) as H.
    destruct (Engine.get_rendition unreadable render instance filters st) as [o st'].
    now apply IH.
Qed.

(** C7: against a get-or-create engine, resolving the same keyword
    arguments for the same image a second time returns what the first
    call returned and leaves the rendition table as the first call left
    it, and the table keeps at most one rendition per image and filter
    specification. *)
Theorem resolve_rendition_idempotent
        (cfg : Settings) (instance : Image.t) (kwargs : list (string * scalar))
        (st : Engine.store) :
  Engine.at_most_one st ->
  let (first, st1) :=
    run (Engine.get_rendition unreadable render)
        (resolve_rendition cfg instance kwargs) st in
  run (Engine.get_rendition unreadable render)
      (resolve_rendition cfg instance kwargs) st1 = (first, st1) /\
  Engine.at_most_one st1.
Proof.
  intros Hst.
  pose proof (run_at_most_one (resolve_rendition cfg instance kwargs) st Hst) as Hinv.
  unfold resolve_rendition in *.
  destruct (rendition_allowed cfg (rendition_filters kwargs)); cbn [negb run] in *.
  - pose proof (get_rendition_again instance (rendition_filters kwargs) st) as Hagain.
    destruct (Engine.get_rendition unreadable render instance (rendition_filters kwargs) st)
      as [o st1].
    cbn [snd] in Hagain.
    destruct o as [r|[]]; cbn [run snd] in *; rewrite Hagain;
      split; (reflexivity || exact Hinv).
  - split; [reflexivity | exact Hinv].
Qed.

End EngineFacts.

Lemma resolve_rendition_idempotent_witness :
  Engine.at_most_one empty_store /\
  let (first, st1) :=
    run (Engine.get_rendition (fun _ => false) sample_render)
        (resolve_rendition open_settings photo [("width", SInt 100)]) empty_store in
  run (Engine.get_rendition (fun _ => false) sample_render)
      (resolve_rendition open_settings photo [("width", SInt 100)]) st1 = (first, st1) /\
  Engine.at_most_one st1.
Proof.
  split.
  - constructor.
  - apply (resolve_rendition_idempotent (fun _ => false) sample_render open_settings photo
             [("width", SInt 100)] empty_store).
    constructor.
Defined.

(** The first call creates rendition 1, the second returns it and creates
    nothing. *)
Example resolve_rendition_twice :
  let eng := Engine.get_rendition (fun _ => false) sample_render in
  let call := resolve_rendition open_settings photo [("width", SInt 100)] in
  let (pair, st) := run eng (a <- call ;; b <- call ;; Return (a, b)) empty_store in
  match pair with
  | Ok (Some a, Some b) =>
      a = b /\ Rendition.id a = 1 /\ Engine.renditions st = [a] /\ Engine.next_id st = 2
  | _ => False
  end.
Proof. cbv. repeat split. Qed.

(** ** The image query *)

Lemma filter_pk_absent (id : Z) (objects : list Image.t) :
  ~ In id (map Image.pk objects) ->
  filter (fun i => Image.pk i =? id) objects = [].
Proof.
  induction objects as [|a l IH]; cbn [map filter]; intros H; [reflexivity|].
  destruct (Z.eqb_spec (Image.pk a) id) as [E|E].
  - exfalso. apply H. now left.
  - apply IH. intros Hin. apply H. now right.
Qed.

Lemma filter_pk_at_most_one (id : Z) (objects : list Image.t) :
  NoDup (map Image.pk objects) ->
  filter (fun i => Image.pk i =? id) objects = [] \/
  exists i, filter (fun i => Image.pk i =? id) objects = [i].
Proof.
  induction objects as [|a l IH]; cbn [map filter]; intros H; [now left|].
  apply NoDup_cons_iff in H as [Ha Hl].
  destruct (Z.eqb_spec (Image.pk a) id) as [E|E].
  - right. exists a. rewrite E in Ha. now rewrite (filter_pk_absent id l Ha).
  - now apply IH.
Qed.

Lemma unique_pk_filter (keep : Image.t -> bool) (rows : list Image.t) :
  NoDup (map Image.pk rows) -> NoDup (map Image.pk (filter keep rows)).
Proof.
  intros Hrows. induction rows as [|row rows IH]; cbn [map filter]; [constructor|].
  cbn [map] in Hrows. apply NoDup_cons_iff in Hrows as [Hrow Hrows].
  destruct (keep row); [|now apply IH].
  cbn [map]. constructor; [|now apply IH].
  intros Hin. apply Hrow. apply in_map_iff in Hin as (x & Hx & Hin).
  apply filter_In in Hin as [Hin _]. apply in_map_iff. now exists x.
Qed.

Lemma unrestricted_iff (i : Image.t) :
  unrestricted i = true <-> Collection.view_restrictions (Image.collection i) = [].
Proof.
  unfold unrestricted.
  destruct (Collection.view_restrictions (Image.collection i)); split;
    (reflexivity || discriminate).
Qed.



(** A public image is found, a missing identifier and an image in a
    restricted collection both give [None]. *)
Example resolve_image_samples :
  resolve_image [photo; draft] 1 = Ok (Some photo) /\
  resolve_image [photo; draft] 2 = Ok None /\
  resolve_image [photo; draft] 3 = Ok None.
Proof. repeat split. Qed.

(** ** Pure fields *)


(** 1920 by 1080 is 16/9 rounded to a double; 4 by 2 is exactly 2.0; a
    zero height raises. *)
Example resolve_aspect_ratio_samples :
  resolve_aspect_ratio photo = Ok (S754_finite false 8006399337547548 (-52)) /\
  int_truediv 4 2 = Ok (float_of_Z 2) /\
  resolve_aspect_ratio draft = Raised ZeroDivisionError.
Proof. repeat split; vm_compute; reflexivity. Qed.

(** C9: [src] and [url] resolve to the same value, the media url of the
    image. *)
Theorem resolve_src_same_as_resolve_url
        (get_media_item_url : media_item -> string) (instance : Image.t) :
  resolve_src get_media_item_url instance = resolve_url get_media_item_url instance /\
  resolve_url get_media_item_url instance = get_media_item_url (ImageItem instance).
Proof. split; reflexivity. Qed.

(** C10: the [sizes] text is ["(max-width: <width>px) 100vw, <width>px"]
    with the decimal width of the image in both places; an image of the
    same width gives the same text, whatever its other fields hold. *)
Theorem resolve_sizes_spec (instance : Image.t) :
  resolve_sizes instance = sizes_text (str_int (Image.width instance)) /\
  forall other : Image.t,
    Image.width other = Image.width instance ->
    resolve_sizes other = resolve_sizes instance.
Proof.
  split; [reflexivity|].
  intros other Hwidth. unfold resolve_sizes. now rewrite Hwidth.
Qed.

Example resolve_sizes_sample :
  resolve_sizes photo = "(max-width: 1920px) 100vw, 1920px".
Proof. reflexivity. Qed.

(** * Further properties of the resolvers *)

(** ** The filter check *)

(** X1: what a configured sequence allows depends only on which strings
    are among its entries: a list and a tuple with the same string entries
    allow the same filters, whatever their order, their repetitions and
    their entries that are not strings. *)
Theorem rendition_allowed_same_entries (a b : list scalar) :
  (forall s, In (SStr s) a <-> In (SStr s) b) ->
  forall f,
    rendition_allowed {| ALLOWED_IMAGE_FILTERS := PyList a |} f
    = rendition_allowed {| ALLOWED_IMAGE_FILTERS := PyTuple b |} f.
Proof.
  intros Hsame f. rewrite !rendition_allowed_cases. cbn [ALLOWED_IMAGE_FILTERS configured_entries].
  destruct (existsb (scalar_eqb (SStr f)) b) eqn:Hb.
  - apply existsb_scalar_eqb_In, Hsame, existsb_scalar_eqb_In, Hb.
  - destruct (existsb (scalar_eqb (SStr f)) a) eqn:Ha; [|reflexivity].
    apply existsb_scalar_eqb_In, Hsame, existsb_scalar_eqb_In in Ha. congruence.
Qed.

Lemma rendition_allowed_same_entries_witness :
  (forall s, In (SStr s) [SStr "width-200"; SInt 100; SStr "width-100"; SStr "width-200"]
             <-> In (SStr s) [SStr "width-100"; SStr "width-200"; SNone]) /\
  forall f,
    rendition_allowed
      {| ALLOWED_IMAGE_FILTERS :=
           PyList [SStr "width-200"; SInt 100; SStr "width-100"; SStr "width-200"] |} f
    = rendition_allowed
        {| ALLOWED_IMAGE_FILTERS := PyTuple [SStr "width-100"; SStr "width-200"; SNone] |} f.
Proof.
  assert (H : forall s,
             In (SStr s) [SStr "width-200"; SInt 100; SStr "width-100"; SStr "width-200"]
             <-> In (SStr s) [SStr "width-100"; SStr "width-200"; SNone]).
  { intros s. simpl. split; intros H;
      repeat (destruct H as [H|H]; try discriminate H; try contradiction; auto). }
  split; [exact H | exact (rendition_allowed_same_entries _ _ H)].
Defined.

(** [str(int)] tells integers apart. *)
Lemma str_int_inj (a b : Z) : str_int a = str_int b -> a = b.
Proof.
  unfold str_int. intros H. apply DecimalZ.to_int_inj.
  assert (P : forall z, NilZero.int_of_string (NilZero.string_of_int (Z.to_int z))
                        = Some (Z.to_int z)).
  { intros z. apply NilZero.isi; destruct z; simpl; try discriminate;
      intros E; injection E; apply DecimalPos.Unsigned.to_uint_nonnil. }
  apply (f_equal NilZero.int_of_string) in H. rewrite !P in H. now injection H.
Qed.

Lemma string_length_app (a b : string) :
  String.length (a ++ b) = (String.length a + String.length b)%nat.
Proof. induction a as [|ch a IH]; simpl; [reflexivity | now rewrite IH]. Qed.

Lemma string_app_cancel_r (a b tail : string) : a ++ tail = b ++ tail -> a = b.
Proof.
  revert b. induction a as [|ch a IH]; intros [|ch' b] H; simpl in H.
  - reflexivity.
  - apply (f_equal String.length) in H. simpl in H. rewrite string_length_app in H. lia.
  - apply (f_equal String.length) in H. simpl in H. rewrite string_length_app in H. lia.
  - injection H as Hch Hrest. f_equal; [exact Hch | now apply IH].
Qed.

(** X2: the token that [resolve_src_set] checks for a width is the token
    of no other width: a list that holds the token of one width allows,
    among the width tokens of the same format, that width alone. *)
Theorem width_token_allows_one_width (format : option string) (w1 w2 : Z) :
  rendition_allowed
    {| ALLOWED_IMAGE_FILTERS := PyList [SStr ("width-" ++ str_int w1 ++ filter_suffix format)] |}
    ("width-" ++ str_int w2 ++ filter_suffix format) = true
  <-> w1 = w2.
Proof.
  rewrite rendition_allowed_cases. cbn [ALLOWED_IMAGE_FILTERS configured_entries].
  rewrite existsb_scalar_eqb_In. split.
  - intros [H|[]].
    assert (E : str_int w1 ++ filter_suffix format = str_int w2 ++ filter_suffix format)
      by (simpl in H; congruence).
    apply string_app_cancel_r in E. now apply str_int_inj.
  - intros ->. now left.
Qed.

(** ** The filter specification *)



(** X4: the specification of two groups of keyword arguments, neither
    empty, is the specification of the first, a [|], and the specification
    of the second. *)
Theorem rendition_filters_app (first second : list (string * scalar)) :
  first <> [] -> second <> [] ->
  rendition_filters (first ++ second)%list
  = rendition_filters first ++ "|" ++ rendition_filters second.
Proof.
  unfold rendition_filters. intros Hfirst Hsecond.
  induction first as [|item rest IH]; [congruence|].
  destruct rest as [|next rest].
  - destruct second as [|item2 second]; [congruence | reflexivity].
  - change (String.concat "|" (map filter_token ((item :: next :: rest) ++ second)%list))
      with (filter_token item ++ "|"
              ++ String.concat "|" (map filter_token ((next :: rest) ++ second)%list)).
    rewrite IH by discriminate.
    change (String.concat "|" (map filter_token (item :: next :: rest)))
      with (filter_token item ++ "|" ++ String.concat "|" (map filter_token (next :: rest))).
    now rewrite !string_app_assoc.
Qed.

Lemma rendition_filters_app_witness :
  [("width", SInt 100)] <> [] /\ [("format", SStr "webp")] <> [] /\
  rendition_filters ([("width", SInt 100)] ++ [("format", SStr "webp")])%list
  = rendition_filters [("width", SInt 100)] ++ "|" ++ rendition_filters [("format", SStr "webp")].
Proof.
  split; [discriminate|]. split; [discriminate|].
  apply rendition_filters_app; discriminate.
Defined.

(** ** The source set and the engine *)

(** The comprehension over widths of which none is allowed is the empty
    list, without a step. *)
Lemma rendition_list_none_allowed
      (cfg : Settings) (instance : Image.t) (format : option string) (sizes : list Z) :
  (forall width, In width sizes ->
     rendition_allowed cfg ("width-" ++ str_int width ++ filter_suffix format) = false) ->
  rendition_list cfg instance format sizes = Return [].
Proof.
  induction sizes as [|width rest IH]; intros Hnone; [reflexivity|].
  cbn [rendition_list]. rewrite (Hnone width) by now left.
  apply IH. intros w Hw. apply Hnone. now right.
Qed.

(** X5: when the check allows the token of none of the widths, so also
    for an empty list of sizes, [resolve_src_set] returns the empty string
    without a call of the engine, with or without a stored file. *)
Theorem resolve_src_set_none_allowed
        (cfg : Settings) (url : media_item -> string)
        (instance : Image.t) (sizes : list Z) (format : option string) :
  (forall width, In width sizes ->
     rendition_allowed cfg ("width-" ++ str_int width ++ filter_suffix format) = false) ->
  resolve_src_set cfg url instance sizes format = Return "".
Proof.
  intros Hnone. unfold resolve_src_set.
  rewrite (rendition_list_none_allowed cfg instance format sizes Hnone).
  now destruct (Image.file_name instance).
Qed.

Lemma resolve_src_set_none_allowed_witness :
  (forall width, In width [300; 400] ->
     rendition_allowed strict_settings ("width-" ++ str_int width ++ filter_suffix None) = false) /\
  resolve_src_set strict_settings sample_url photo [300; 400] None = Return "".
Proof.
  assert (H : forall width, In width [300; 400] ->
                rendition_allowed strict_settings
                  ("width-" ++ str_int width ++ filter_suffix None) = false).
  { intros width [<-|[<-|[]]]; reflexivity. }
  split; [exact H | exact (resolve_src_set_none_allowed _ _ _ _ _ H)].
Defined.

Lemma rendition_list_calls_allowed
      (cfg : Settings) (St : Type) (eng : engine St)
      (instance : Image.t) (format : option string) (sizes : list Z) (st : St) :
  Forall (fun call => fst call = instance /\ rendition_allowed cfg (snd call) = true)
         (calls eng (rendition_list cfg instance format sizes) st).
Proof.
  revert st. induction sizes as [|width rest IH]; intros st; [constructor|].
  cbn [rendition_list]. rewrite checked_token.
  destruct (rendition_allowed cfg (width_token width format)) eqn:Hallowed; [|apply IH].
  rewrite calls_bind. unfold resolve_rendition.
  rewrite requested_filters, Hallowed. cbn [negb run calls].
  destruct (eng instance (width_token width format) st) as [[r|e] st1].
  - cbn [run calls app]. constructor; [now split|].
    rewrite calls_bind. apply Forall_app. split; [apply IH|].
    destruct (run eng (rendition_list cfg instance format rest) st1) as [[l|e] st2];
      constructor.
  - destruct e; cbn [run calls app]; (constructor; [now split|]); try constructor.
    rewrite calls_bind. apply Forall_app. split; [apply IH|].
    destruct (run eng (rendition_list cfg instance format rest) st1) as [[l|e] st2];
      constructor.
Qed.

(** X6: whatever the engine does, every call that [resolve_src_set] makes
    is for the image at hand and for a filter specification that the check
    allows. *)
Theorem resolve_src_set_calls_allowed
        (cfg : Settings) (url : media_item -> string) (St : Type) (eng : engine St)
        (instance : Image.t) (sizes : list Z) (format : option string) (st : St) :
  Forall (fun call => fst call = instance /\ rendition_allowed cfg (snd call) = true)
         (calls eng (resolve_src_set cfg url instance sizes format) st).
Proof.
  unfold resolve_src_set. destruct (Image.file_name instance); [|constructor].
  rewrite calls_bind. apply Forall_app. split; [apply rendition_list_calls_allowed|].
  destruct (run eng (rendition_list cfg instance format sizes) st) as [[l|e] st'];
    constructor.
Qed.

(** X7: when [resolve_src_set] returns for an image with a stored file,
    it has asked the engine exactly once for each width whose token is
    allowed, in the order of the sizes, for the checked token. *)
Theorem resolve_src_set_calls
        (cfg : Settings) (url : media_item -> string) (St : Type) (eng : engine St)
        (instance : Image.t) (sizes : list Z) (format : option string) (st : St)
        (text : string) :
  Image.file_name instance <> None ->
  fst (run eng (resolve_src_set cfg url instance sizes format) st) = Ok text ->
  calls eng (resolve_src_set cfg url instance sizes format) st =
  map (fun width => (instance, "width-" ++ str_int width ++ filter_suffix format))
      (filter (fun width =>
                 rendition_allowed cfg ("width-" ++ str_int width ++ filter_suffix format))
              sizes).
Proof.
  intros Hfile Hrun. unfold resolve_src_set in *.
  destruct (Image.file_name instance) as [n|]; [|congruence].
  rewrite run_bind in Hrun. rewrite calls_bind.
  pose proof (rendition_list_survivors cfg St eng instance format sizes st) as Hs.
  pose proof (rendition_list_calls cfg St eng instance format sizes st) as Hc.
  destruct (survivors cfg eng instance format sizes st) as [[rs|e] st'].
  - destruct Hs as (l & Hl & _). rewrite Hl. cbn [calls]. rewrite app_nil_r.
    rewrite Hc by (now exists rs).
    rewrite (map_ext (fun width => (instance, "width-" ++ str_int width ++ filter_suffix format))
                     (fun width => (instance, width_token width format)))
      by (intros w; now rewrite checked_token).
    f_equal. apply filter_ext. intros w. now rewrite checked_token.
  - rewrite Hs in Hrun. discriminate Hrun.
Qed.

Lemma resolve_src_set_calls_witness :
  Image.file_name photo <> None /\
  fst (run (Engine.get_rendition (fun _ => false) sample_render)
           (resolve_src_set strict_settings sample_url photo [100; 300; 200] None) empty_store)
  = Ok "/media/images/photo.width-100.jpg 100w, /media/images/photo.width-200.jpg 200w" /\
  calls (Engine.get_rendition (fun _ => false) sample_render)
        (resolve_src_set strict_settings sample_url photo [100; 300; 200] None) empty_store =
  map (fun width => (photo, "width-" ++ str_int width ++ filter_suffix None))
      (filter (fun width =>
                 rendition_allowed strict_settings
                   ("width-" ++ str_int width ++ filter_suffix None))
              [100; 300; 200]).
Proof.
  split; [discriminate|]. split; [reflexivity|].
  apply (resolve_src_set_calls strict_settings sample_url Engine.store
           (Engine.get_rendition (fun _ => false) sample_render) photo [100; 300; 200] None
           empty_store
           "/media/images/photo.width-100.jpg 100w, /media/images/photo.width-200.jpg 200w");
    [discriminate | reflexivity].
Defined.

Lemma run_rendition_list_app
      (cfg : Settings) (St : Type) (eng : engine St)
      (instance : Image.t) (format : option string) (l1 l2 : list Z) (st : St) :
  run eng (rendition_list cfg instance format (l1 ++ l2)%list) st =
  match run eng (rendition_list cfg instance format l1) st with
  | (Ok a, st1) =>
      match run eng (rendition_list cfg instance format l2) st1 with
      | (Ok b, st2) => (Ok (a ++ b)%list, st2)
      | (Raised e, st2) => (Raised e, st2)
      end
  | (Raised e, st1) => (Raised e, st1)
  end.
Proof.
  revert st. induction l1 as [|width rest IH]; intros st.
  - cbn [app rendition_list run].
    now destruct (run eng (rendition_list cfg instance format l2) st) as [[b|e] st2].
  - cbn [app rendition_list].
    destruct (rendition_allowed cfg ("width-" ++ str_int width ++ filter_suffix format));
      [|apply IH].
    rewrite !run_bind.
    destruct (run eng (resolve_rendition cfg instance
                         (("width", SInt width) :: format_kwarg format)) st)
      as [[r|e] st1]; [|reflexivity].
    rewrite !run_bind, IH.
    destruct (run eng (rendition_list cfg instance format rest) st1) as [[a|e] st2];
      [|reflexivity].
    cbn [run].
    now destruct (run eng (rendition_list cfg instance format l2) st2) as [[b|e] st3].
Qed.

Lemma calls_rendition_list_app
      (cfg : Settings) (St : Type) (eng : engine St)
      (instance : Image.t) (format : option string) (l1 l2 : list Z) (st : St) :
  calls eng (rendition_list cfg instance format (l1 ++ l2)%list) st =
  (calls eng (rendition_list cfg instance format l1) st ++
   match run eng (rendition_list cfg instance format l1) st with
   | (Ok _, st1) => calls eng (rendition_list cfg instance format l2) st1
   | (Raised _, _) => []
   end)%list.
Proof.
  revert st. induction l1 as [|width rest IH]; intros st; [reflexivity|].
  cbn [app rendition_list].
  destruct (rendition_allowed cfg ("width-" ++ str_int width ++ filter_suffix format));
    [|apply IH].
  rewrite !calls_bind, !run_bind, <- app_assoc. f_equal.
  destruct (run eng (resolve_rendition cfg instance
                       (("width", SInt width) :: format_kwarg format)) st)
    as [[r|e] st1]; [|reflexivity].
  rewrite !calls_bind, !run_bind, IH, run_rendition_list_app, <- app_assoc.
  destruct (run eng (rendition_list cfg instance format rest) st1) as [[a|e] st2];
    cbn [run calls app]; [|now rewrite ?app_nil_r].
  destruct (run eng (rendition_list cfg instance format l2) st2) as [[b|e] st3];
    cbn [run calls app]; now rewrite ?app_nil_r.
Qed.

(** X8: an engine error other than an unreadable source, raised for a
    width whose token is allowed, is raised by [resolve_src_set] itself:
    the descriptors of the widths before it are lost and the widths after
    it are not asked for. *)
Theorem resolve_src_set_engine_error
        (cfg : Settings) (url : media_item -> string) (St : Type) (eng : engine St)
        (instance : Image.t) (before rest : list Z) (width : Z) (format : option string)
        (st st0 st' : St) (text : string) (e : exn) :
  Image.file_name instance <> None ->
  run eng (resolve_src_set cfg url instance before format) st = (Ok text, st0) ->
  rendition_allowed cfg ("width-" ++ str_int width ++ filter_suffix format) = true ->
  eng instance ("width-" ++ str_int width ++ filter_suffix format) st0 = (Raised e, st') ->
  e <> SourceImageIOError ->
  run eng (resolve_src_set cfg url instance (before ++ width :: rest)%list format) st
    = (Raised e, st') /\
  calls eng (resolve_src_set cfg url instance (before ++ width :: rest)%list format) st
    = (calls eng (resolve_src_set cfg url instance before format) st
         ++ [(instance, ("width-" ++ str_int width ++ filter_suffix format)%string)])%list.
Proof.
  intros Hfile Hbefore Hallowed Heng He. unfold resolve_src_set in *.
  destruct (Image.file_name instance) as [n|]; [|congruence].
  rewrite run_bind in Hbefore. rewrite run_bind, !calls_bind.
  rewrite run_rendition_list_app, calls_rendition_list_app.
  destruct (run eng (rendition_list cfg instance format before) st) as [[l|e0] st1];
    [|discriminate Hbefore].
  cbn [run] in Hbefore. injection Hbefore as _ Hst. subst st1.
  assert (Hrun : run eng (rendition_list cfg instance format (width :: rest)) st0
                 = (Raised e, st')).
  { cbn [rendition_list]. rewrite Hallowed, run_bind. unfold resolve_rendition.
    rewrite requested_filters, <- checked_token, Hallowed. cbn [negb run].
    rewrite Heng. destruct e; cbn [run]; congruence. }
  assert (Hcalls : calls eng (rendition_list cfg instance format (width :: rest)) st0
                   = [(instance, "width-" ++ str_int width ++ filter_suffix format)]).
  { cbn [rendition_list]. rewrite Hallowed, calls_bind. unfold resolve_rendition.
    rewrite requested_filters, <- checked_token, Hallowed. cbn [negb run calls].
    rewrite Heng. destruct e; cbn [run calls app]; congruence. }
  rewrite Hrun, Hcalls. cbn [calls]. split; [reflexivity|]. now rewrite !app_nil_r.
Qed.

Lemma resolve_src_set_engine_error_witness :
  let eng : engine unit :=
    fun _ filters st =>
      if String.eqb filters "width-100"
      then (Ok {| Rendition.id := 1; Rendition.image := 1; Rendition.filter_spec := filters;
                  Rendition.file := "images/photo.width-100.jpg";
                  Rendition.width := 100; Rendition.height := 56 |}, st)
      else (Raised (OtherError "storage"), st) in
  Image.file_name photo <> None /\
  run eng (resolve_src_set open_settings sample_url photo [100] None) tt
    = (Ok "/media/images/photo.width-100.jpg 100w", tt) /\
  rendition_allowed open_settings ("width-" ++ str_int 200 ++ filter_suffix None) = true /\
  eng photo ("width-" ++ str_int 200 ++ filter_suffix None) tt
    = (Raised (OtherError "storage"), tt) /\
  OtherError "storage" <> SourceImageIOError /\
  run eng (resolve_src_set open_settings sample_url photo ([100] ++ 200 :: [100])%list None) tt
    = (Raised (OtherError "storage"), tt) /\
  calls eng (resolve_src_set open_settings sample_url photo ([100] ++ 200 :: [100])%list None) tt
    = (calls eng (resolve_src_set open_settings sample_url photo [100] None) tt
         ++ [(photo, ("width-" ++ str_int 200 ++ filter_suffix None)%string)])%list.
Proof.
  intros eng.
  repeat (split; [first [discriminate | reflexivity]|]).
  apply (resolve_src_set_engine_error open_settings sample_url unit eng photo [100] [100] 200
           None tt tt tt "/media/images/photo.width-100.jpg 100w" (OtherError "storage"));
    first [discriminate | reflexivity].
Defined.

Lemma descriptors_app (url : media_item -> string) (a b : list (option Rendition.t)) :
  descriptors url (a ++ b)%list = (descriptors url a ++ descriptors url b)%list.
Proof.
  induction a as [|[img|] a IH]; cbn [app descriptors]; [reflexivity | | exact IH].
  now rewrite IH.
Qed.

Lemma descriptors_concat_nonempty (url : media_item -> string) (l : list (option Rendition.t)) :
  descriptors url l <> [] ->
  exists ch text, String.concat ", " (descriptors url l) = String ch text.
Proof.
  induction l as [|[img|] l IH]; cbn [descriptors]; intros Hne; [congruence | | now apply IH].
  assert (Hd : exists ch text, descriptor url img = String ch text).
  { unfold descriptor. destruct (url (RenditionItem img)) as [|ch text]; simpl; eauto. }
  destruct Hd as (ch & text & Hd). rewrite Hd.
  destruct (descriptors url l); simpl; eauto.
Qed.

Lemma string_concat_app (sep : string) (xs ys : list string) :
  xs <> [] -> ys <> [] ->
  String.concat sep (xs ++ ys)%list = String.concat sep xs ++ sep ++ String.concat sep ys.
Proof.
  intros Hxs Hys. induction xs as [|x xs IH]; [congruence|].
  destruct xs as [|x' xs].
  - destruct ys; [congruence | reflexivity].
  - change (String.concat sep ((x :: x' :: xs) ++ ys)%list)
      with (x ++ sep ++ String.concat sep ((x' :: xs) ++ ys)%list).
    rewrite IH by discriminate.
    change (String.concat sep (x :: x' :: xs)) with (x ++ sep ++ String.concat sep (x' :: xs)).
    now rewrite !string_app_assoc.
Qed.

(** X9: the source set of two lists of sizes put end to end is the source
    set of the first followed, from the engine state it leaves, by the
    source set of the second, with [", "] between them when neither is
    empty; an error in either is the error of the whole. *)
Theorem resolve_src_set_app
        (cfg : Settings) (url : media_item -> string) (St : Type) (eng : engine St)
        (instance : Image.t) (sizes1 sizes2 : list Z) (format : option string) (st : St) :
  run eng (resolve_src_set cfg url instance (sizes1 ++ sizes2)%list format) st =
  match run eng (resolve_src_set cfg url instance sizes1 format) st with
  | (Ok text1, st1) =>
      match run eng (resolve_src_set cfg url instance sizes2 format) st1 with
      | (Ok text2, st2) =>
          (Ok match text1, text2 with
              | EmptyString, _ => text2
              | _, EmptyString => text1
              | _, _ => text1 ++ ", " ++ text2
              end, st2)
      | (Raised e, st2) => (Raised e, st2)
      end
  | (Raised e, st1) => (Raised e, st1)
  end.
Proof.
  unfold resolve_src_set. destruct (Image.file_name instance) as [n|]; [|reflexivity].
  rewrite !run_bind, run_rendition_list_app.
  destruct (run eng (rendition_list cfg instance format sizes1) st) as [[a|e] st1];
    cbn [run]; [|reflexivity].
  rewrite run_bind.
  destruct (run eng (rendition_list cfg instance format sizes2) st1) as [[b|e] st2];
    cbn [run]; [|reflexivity].
  f_equal. f_equal. rewrite descriptors_app.
  destruct (descriptors url a) as [|da das] eqn:Ha.
  - reflexivity.
  - rewrite <- Ha in *.
    destruct (descriptors_concat_nonempty url a) as (ch1 & t1 & H1); [rewrite Ha; discriminate|].
    destruct (descriptors url b) as [|db dbs] eqn:Hb.
    + rewrite app_nil_r, H1. reflexivity.
    + rewrite <- Hb in *.
      destruct (descriptors_concat_nonempty url b) as (ch2 & t2 & H2);
        [rewrite Hb; discriminate|].
      rewrite string_concat_app by (rewrite ?Ha, ?Hb; discriminate).
      now rewrite H1, H2.
Qed.

(** ** The image query and the image list *)

(** X10: a row in a restricted collection changes no lookup: with or
    without it in the table, [resolve_image] gives the same answer for
    every identifier, its own included. *)
Theorem resolve_image_ignores_restricted
        (before after : list Image.t) (hidden : Image.t) (id : Z) :
  Collection.view_restrictions (Image.collection hidden) <> [] ->
  resolve_image (before ++ hidden :: after)%list id = resolve_image (before ++ after)%list id.
Proof.
  intros Hhidden. unfold resolve_image, prefetch_renditions.
  rewrite !filter_app. cbn [filter].
  destruct (unrestricted hidden) eqn:Hpub; [|reflexivity].
  apply unrestricted_iff in Hpub. contradiction.
Qed.

Lemma resolve_image_ignores_restricted_witness :
  Collection.view_restrictions (Image.collection draft) <> [] /\
  resolve_image ([photo] ++ draft :: [])%list 2 = resolve_image ([photo] ++ [])%list 2.
Proof.
  split; [discriminate | apply resolve_image_ignores_restricted; discriminate].
Defined.

(** X11: when the list helper returns only rows of the queryset it is
    given, every image that [resolve_images] returns is a row of the table
    whose collection has no view restrictions. *)
Theorem resolve_images_public
        (resolve_queryset : list Image.t -> list (string * scalar) -> list Image.t)
        (objects : list Image.t) (kwargs : list (string * scalar)) (i : Image.t) :
  (forall queryset kw row, In row (resolve_queryset queryset kw) -> In row queryset) ->
  In i (resolve_images resolve_queryset objects kwargs) ->
  In i objects /\ Collection.view_restrictions (Image.collection i) = [].
Proof.
  intros Hsub Hin. unfold resolve_images, prefetch_renditions in Hin.
  apply Hsub, filter_In in Hin as [Hin Hpub].
  split; [exact Hin | now apply unrestricted_iff].
Qed.

Lemma resolve_images_public_witness :
  (forall queryset (kw : list (string * scalar)) (row : Image.t),
     In row ((fun qs _ => firstn 1 qs) queryset kw) -> In row queryset) /\
  In photo (resolve_images (fun qs _ => firstn 1 qs) [draft; photo] []) /\
  In photo [draft; photo] /\ Collection.view_restrictions (Image.collection photo) = [].
Proof.
  assert (H : forall queryset (kw : list (string * scalar)) (row : Image.t),
             In row ((fun qs _ => firstn 1 qs) queryset kw) -> In row queryset).
  { intros [|first others] kw row Hin; simpl in Hin; [contradiction|].
    destruct Hin as [->|[]]. now left. }
  assert (Hin : In photo (resolve_images (fun qs _ => firstn 1 qs) [draft; photo] []))
    by (now left).
  split; [exact H|]. split; [exact Hin|].
  exact (resolve_images_public (fun qs _ => firstn 1 qs) [draft; photo] [] photo H Hin).
Defined.

(** X12: over a table with unique primary keys, and with a list helper
    that returns only rows of its queryset, every image that
    [resolve_images] returns is the image that [resolve_image] returns
    for its primary key. *)
Theorem resolve_images_then_resolve_image
        (resolve_queryset : list Image.t -> list (string * scalar) -> list Image.t)
        (objects : list Image.t) (kwargs : list (string * scalar)) (i : Image.t) :
  NoDup (map Image.pk objects) ->
  (forall queryset kw row, In row (resolve_queryset queryset kw) -> In row queryset) ->
  In i (resolve_images resolve_queryset objects kwargs) ->
  resolve_image objects (Image.pk i) = Ok (Some i).
Proof.
  intros Hpk Hsub Hin. unfold resolve_images, prefetch_renditions in Hin.
  apply Hsub in Hin.
  assert (Hfound : In i (filter (fun j => Image.pk j =? Image.pk i)
                                (filter unrestricted objects)))
    by (apply filter_In; split; [exact Hin | apply Z.eqb_refl]).
  unfold resolve_image, queryset_get, prefetch_renditions.
  destruct (filter_pk_at_most_one (Image.pk i) (filter unrestricted objects)
              (unique_pk_filter unrestricted objects Hpk)) as [E | [j E]];
    rewrite E in *.
  - contradiction.
  - destruct Hfound as [->|[]]. reflexivity.
Qed.

Lemma resolve_images_then_resolve_image_witness :
  NoDup (map Image.pk [draft; photo]) /\
  (forall queryset (kw : list (string * scalar)) (row : Image.t),
     In row ((fun qs _ => firstn 1 qs) queryset kw) -> In row queryset) /\
  In photo (resolve_images (fun qs _ => firstn 1 qs) [draft; photo] []) /\
  resolve_image [draft; photo] (Image.pk photo) = Ok (Some photo).
Proof.
  assert (Hpk : NoDup (map Image.pk [draft; photo])).
  { repeat constructor; simpl; intuition discriminate. }
  assert (H : forall queryset (kw : list (string * scalar)) (row : Image.t),
             In row ((fun qs _ => firstn 1 qs) queryset kw) -> In row queryset).
  { intros [|first others] kw row Hin; simpl in Hin; [contradiction|].
    destruct Hin as [->|[]]. now left. }
  assert (Hin : In photo (resolve_images (fun qs _ => firstn 1 qs) [draft; photo] []))
    by (now left).
  split; [exact Hpk|]. split; [exact H|]. split; [exact Hin|].
  exact (resolve_images_then_resolve_image (fun qs _ => firstn 1 qs) [draft; photo] [] photo
           Hpk H Hin).
Defined.

(** ** The source set without a format *)

Lemma rendition_list_empty_format
      (cfg : Settings) (instance : Image.t) (sizes : list Z) :
  rendition_list cfg instance (Some "") sizes = rendition_list cfg instance None sizes.
Proof.
  induction sizes as [|width rest IH]; [reflexivity|].
  cbn [rendition_list]. now rewrite IH.
Qed.

(** X13: an empty [format] string counts as no format: the widths are
    checked and resolved as bare [width-<N>] tokens, and the source set is
    the one obtained without a format. *)
Theorem resolve_src_set_empty_format
        (cfg : Settings) (url : media_item -> string)
        (instance : Image.t) (sizes : list Z) :
  resolve_src_set cfg url instance sizes (Some "")
  = resolve_src_set cfg url instance sizes None.
Proof.
  unfold resolve_src_set. now rewrite rendition_list_empty_format.
Qed.

(** ** The aspect ratio of a square image *)

Lemma div_eucl_shiftl_same (p : positive) :
  Z.div_eucl (Z.shiftl (Z.pos p) 53) (Z.pos p) = (2 ^ 53, 0).
Proof.
  rewrite Z.shiftl_mul_pow2 by lia.
  pose proof (Z_div_mod (Z.pos p * 2 ^ 53) (Z.pos p) eq_refl) as H.
  destruct (Z.div_eucl (Z.pos p * 2 ^ 53) (Z.pos p)) as [q r].
  destruct H as [Hq Hr].
  assert (q = 2 ^ 53) by nia. subst q. f_equal. lia.
Qed.

Lemma SFdiv_core_same (p : positive) :
  SFdiv_core_binary prec emax (Z.pos p) 0 (Z.pos p) 0 = (2 ^ 53, -53, loc_Exact).
Proof.
  cbv beta delta [SFdiv_core_binary] zeta.
  replace (Zdigits2 (Z.pos p) + 0 - (Zdigits2 (Z.pos p) + 0)) with 0 by lia.
  change (Z.min (fexp prec emax 0) (0 - 0)) with (-53).
  change (0 - 0 - -53) with 53. cbv iota.
  rewrite div_eucl_shiftl_same.
  unfold new_location, new_location_even, new_location_odd.
  now destruct (Z.even (Z.pos p)).
Qed.

(** X14: an image as wide as it is high, of whatever size but zero, has
    the aspect ratio 1.0 exactly (mantissa 2^52, exponent -52). *)
Theorem resolve_aspect_ratio_square (instance : Image.t) :
  Image.width instance = Image.height instance ->
  Image.height instance <> 0 ->
  resolve_aspect_ratio instance = Ok (S754_finite false 4503599627370496 (-52)).
Proof.
  intros Hsquare Hheight. unfold resolve_aspect_ratio, int_truediv. rewrite Hsquare.
  destruct (Image.height instance) as [|p|p]; [congruence| |];
    cbn [Z.abs]; rewrite SFdiv_core_same; reflexivity.
Qed.

Lemma resolve_aspect_ratio_square_witness :
  Image.width {| Image.pk := 3; Image.title := "tile"; Image.file_name := Some "images/tile.png";
                 Image.width := 512; Image.height := 512;
                 Image.collection := public_collection |}
  = Image.height {| Image.pk := 3; Image.title := "tile";
                    Image.file_name := Some "images/tile.png";
                    Image.width := 512; Image.height := 512;
                    Image.collection := public_collection |} /\
  Image.height {| Image.pk := 3; Image.title := "tile"; Image.file_name := Some "images/tile.png";
                  Image.width := 512; Image.height := 512;
                  Image.collection := public_collection |} <> 0 /\
  resolve_aspect_ratio
    {| Image.pk := 3; Image.title := "tile"; Image.file_name := Some "images/tile.png";
       Image.width := 512; Image.height := 512; Image.collection := public_collection |}
  = Ok (S754_finite false 4503599627370496 (-52)).
Proof.
  split; [reflexivity|]. split; [discriminate|].
  apply resolve_aspect_ratio_square; [reflexivity | discriminate].
Defined.
